(** * PriorityExpiryCache: a shallow embedding of [src/index.ts]

    The class keeps four pieces of mutable state next to its two
    configuration scalars:

    - [items]        : [Map<string, Item<T>>], the entry table;
    - [numItems]     : the separately maintained entry counter;
    - [expTree]      : an [AvlTree] keyed by expiration time, every node
                       owning a [DoublyLinkedList] of the items with that
                       expiration time;
    - [priorityTree] : an [AvlTree] keyed by priority, every node owning
                       a [DoublyLinkedList] of the items with that
                       priority, head = least recently used.

    The two container classes come from the npm packages
    [@datastructures-js/binary-search-tree] and
    [@datastructures-js/linked-list]; they are embedded by their
    documented contracts: the tree as a finite map with ordered keys
    ([findKey], [insert], [removeNode], [min]), the list as a sequence
    ([insertFirst], [insertLast], [remove], [head], [isEmpty]).

    Every list object is owned by one tree node, so the two trees are
    the store of the lists.  The references an item caches to its two
    lists and to its two nodes are handles into that store: the list is
    the one filed under the item's own [expTime] (or [priority]), the
    node is the one that carries the item's key.  A state change of a
    list is therefore one update of the tree that owns it, seen by every
    item that refers to the list.

    JavaScript numbers are embedded as [Z]: priorities, expiration times,
    the mock clock, the capacity and the counter are integers here, as
    they are in the program's tests and documentation.  On such keys the
    comparators of the two trees, [a.expTime - b.expTime] and
    [a.priority - b.priority], have the sign of the order of the
    integers, and a tree is the finite map its interface describes.
    [NaN], the two infinities and fractions are outside the embedding:
    for [NaN] and for two equal infinities the difference is [NaN], the
    trees no longer behave as maps, and nothing proved below about the
    eviction order or about the agreement of the trees with the table
    speaks of such inputs.

    Every method is a state transformer on [Cache].  [set] can raise a
    [TypeError] (it hands [undefined] to [deleteItem] when the list it
    inspects has no head), so it returns an [option]. *)

From stdpp Require Import gmap strings list fin_maps sorting.

Local Open Scope Z_scope.

(* ===================================================================== *)
(** ** Data model *)
(* ===================================================================== *)

(** [interface Item<T>]: the four user-provided fields.  The four cached
    references ([itemListSameExp], [itemListSameExpNode],
    [itemListSamePrio], [itemListSamePrioNode]) are followed by looking
    the list up under the item's [expTime] / [priority] and the node up
    by the item's key. *)
Record Item (T : Type) : Type := mkItem {
  key : string;
  value : T;
  expTime : Z;
  priority : Z;
}.

Arguments mkItem {T} _ _ _ _.
Arguments key {T} _.
Arguments value {T} _.
Arguments expTime {T} _.
Arguments priority {T} _.

(** [DoublyLinkedList<Item<T>>]; the front of the sequence is [head()].
    [insertFirst] and [insertLast] take a value or a detached node and
    link it at the front or at the back. *)
Module DLL.
Section DLL.
Context {T : Type}.

Definition insertFirst (it : Item T) (l : list (Item T)) : list (Item T) :=
  it :: l.

Definition insertLast (it : Item T) (l : list (Item T)) : list (Item T) :=
  l ++ [it].

(** [remove(node)]: unlink the node that carries [it].  A node is known
    by the key of its item: a list never holds two nodes with one key
    ([index_ok] below). *)
Fixpoint remove (it : Item T) (l : list (Item T)) : list (Item T) :=
  match l with
  | [] => []
  | x :: r => if decide (key x = key it) then r else x :: remove it r
  end.

Definition head (l : list (Item T)) : option (Item T) :=
  match l with [] => None | x :: _ => Some x end.

Definition isEmpty (l : list (Item T)) : bool :=
  match l with [] => true | _ :: _ => false end.
End DLL.
End DLL.

(** [AvlTree<V>] ordered by an integer key. A node is the pair of its key
  and its value; [min] is the node with the least key. *)
Module Avl.
Section Avl.
Context {V : Type}.

Definition findKey (k : Z) (t : gmap Z V) : option V := t !! k.

Definition insert (k : Z) (v : V) (t : gmap Z V) : gmap Z V := <[k := v]> t.

Definition removeNode (k : Z) (t : gmap Z V) : gmap Z V := delete k t.

Definition least (kv : Z * V) (acc : option (Z * V)) : option (Z * V) :=
  match acc with
  | None => Some kv
  | Some kv' => if decide (kv.1 <= kv'.1) then Some kv else Some kv'
  end.

Definition min (t : gmap Z V) : option (Z * V) :=
  foldr least None (map_to_list t).

(** The list object owned by node [k] has been mutated in place and
    now reads [v]; the shape of the tree is untouched. *)
Definition mutated (k : Z) (v : V) (t : gmap Z V) : gmap Z V := <[k := v]> t.
End Avl.
End Avl.

(** The private fields of [class PriorityExpiryCache<T>]. *)
Record Cache (T : Type) : Type := mkCache {
  maxItems : Z;
  mockTime : Z;
  items : gmap string (Item T);
  numItems : Z;
  expTree : gmap Z (list (Item T));
  priorityTree : gmap Z (list (Item T));
}.

Arguments mkCache {T} _ _ _ _ _ _.
Arguments maxItems {T} _.
Arguments mockTime {T} _.
Arguments items {T} _.
Arguments numItems {T} _.
Arguments expTree {T} _.
Arguments priorityTree {T} _.

(* ===================================================================== *)
(** ** Operations *)
(* ===================================================================== *)

Section Operations.

Context {T : Type}.

#[local] Abbreviation Item := (Item T).
#[local] Abbreviation Cache := (Cache T).

(** [constructor(maxItems)] *)
Definition new (maxItems : Z) : Cache :=
  mkCache maxItems 0 ∅ 0 ∅ ∅.

(** [updateExpTreeAndLinkedListForExpTime] *)
Definition updateExpTreeAndLinkedListForExpTime (item : Item) (c : Cache) : Cache :=
  match Avl.findKey (expTime item) (expTree c) with
  | None =>
      mkCache (maxItems c) (mockTime c) (items c) (numItems c)
        (Avl.insert (expTime item) (DLL.insertFirst item []) (expTree c))
        (priorityTree c)
  | Some l =>
      mkCache (maxItems c) (mockTime c) (items c) (numItems c)
        (Avl.mutated (expTime item) (DLL.insertFirst item l) (expTree c))
        (priorityTree c)
  end.

(** [updatePriorityTreeAndLinkedListForPriority] *)
Definition updatePriorityTreeAndLinkedListForPriority (item : Item) (c : Cache) : Cache :=
  match Avl.findKey (priority item) (priorityTree c) with
  | None =>
      mkCache (maxItems c) (mockTime c) (items c) (numItems c) (expTree c)
        (Avl.insert (priority item) (DLL.insertLast item []) (priorityTree c))
  | Some l =>
      mkCache (maxItems c) (mockTime c) (items c) (numItems c) (expTree c)
        (Avl.mutated (priority item) (DLL.insertLast item l) (priorityTree c))
  end.

(** [updateExpTreeAndLinkedListForItemRemoval]: [item.itemListSameExp] is
    the list under [item.expTime]; when the item carries no such
    reference nothing happens. *)
Definition updateExpTreeAndLinkedListForItemRemoval (item : Item) (c : Cache) : Cache :=
  match expTree c !! expTime item with
  | Some l =>
      let l' := DLL.remove item l in
      if DLL.isEmpty l' then
        mkCache (maxItems c) (mockTime c) (items c) (numItems c)
          (Avl.removeNode (expTime item) (expTree c)) (priorityTree c)
      else
        mkCache (maxItems c) (mockTime c) (items c) (numItems c)
          (Avl.mutated (expTime item) l' (expTree c)) (priorityTree c)
  | None => c
  end.

(** [updatePriorityTreeAndLinkedListForItemRemoval] *)
Definition updatePriorityTreeAndLinkedListForItemRemoval (item : Item) (c : Cache) : Cache :=
  match priorityTree c !! priority item with
  | Some l =>
      let l' := DLL.remove item l in
      if DLL.isEmpty l' then
        mkCache (maxItems c) (mockTime c) (items c) (numItems c) (expTree c)
          (Avl.removeNode (priority item) (priorityTree c))
      else
        mkCache (maxItems c) (mockTime c) (items c) (numItems c) (expTree c)
          (Avl.mutated (priority item) l' (priorityTree c))
  | None => c
  end.

(** [addItem] *)
Definition addItem (k : string) (v : T) (p e : Z) (c : Cache) : Cache :=
  let item := mkItem k v e p in
  let c1 := updateExpTreeAndLinkedListForExpTime item c in
  let c2 := updatePriorityTreeAndLinkedListForPriority item c1 in
  mkCache (maxItems c2) (mockTime c2) (<[k := item]> (items c2))
    (numItems c2 + 1) (expTree c2) (priorityTree c2).

(** [deleteItem] *)
Definition deleteItem (item : Item) (c : Cache) : Cache :=
  let c1 := updateExpTreeAndLinkedListForItemRemoval item c in
  let c2 := updatePriorityTreeAndLinkedListForItemRemoval item c1 in
  mkCache (maxItems c2) (mockTime c2) (delete (key item) (items c2))
    (numItems c2 - 1) (expTree c2) (priorityTree c2).

(** [get]: the new state and the returned value, [None] for
    [undefined]. *)
Definition get (c : Cache) (k : string) : Cache * option T :=
  match items c !! k with
  | Some item =>
      if decide (expTime item > mockTime c) then
        (match priorityTree c !! priority item with
         | Some l =>
             mkCache (maxItems c) (mockTime c) (items c) (numItems c) (expTree c)
               (Avl.mutated (priority item)
                  (DLL.insertLast item (DLL.remove item l)) (priorityTree c))
         | None => c
         end, Some (value item))
      else (c, None)
  | None => (c, None)
  end.

(** The block guarded by [if (this.numItems >= this.maxItems)] in [set].
    [deleteItem(undefined)] dereferences [undefined] and throws: [None]. *)
Definition evict (c : Cache) : option Cache :=
  match Avl.min (expTree c) with
  | Some (et, l) =>
      if decide (et <= mockTime c) then
        itemToEvict ← DLL.head l; Some (deleteItem itemToEvict c)
      else
        match Avl.min (priorityTree c) with
        | Some (_, l') => itemToEvict ← DLL.head l'; Some (deleteItem itemToEvict c)
        | None => Some c
        end
  | None => Some c
  end.

(** [set]; [None] when the call throws. *)
Definition set (c : Cache) (k : string) (v : T) (p e : Z) : option Cache :=
  match items c !! k with
  | Some item => Some (addItem k v p e (deleteItem item c))
  | None =>
      c' ← (if decide (numItems c >= maxItems c) then evict c else Some c);
      Some (addItem k v p e c')
  end.

(** [getKeys]: [forEach] visits every binding of the table and pushes
    [item.key] when the item has not expired.  The returned array is
    sorted with [localeCompare]; it is kept as the set of its elements. *)
Definition getKeys (c : Cache) : gset string :=
  list_to_set
    ((λ kv, key kv.2)
       <$> filter (λ kv, expTime kv.2 > mockTime c) (map_to_list (items c))).

(** [setMockTime] *)
Definition setMockTime (c : Cache) (time : Z) : Cache :=
  mkCache (maxItems c) time (items c) (numItems c) (expTree c) (priorityTree c).

(** *** Call sequences *)

Inductive Op : Type :=
  | OpGet (k : string)
  | OpSet (k : string) (v : T) (p e : Z)
  | OpSetMockTime (time : Z).

Definition step (c : Cache) (o : Op) : option Cache :=
  match o with
  | OpGet k => Some (get c k).1
  | OpSet k v p e => set c k v p e
  | OpSetMockTime time => Some (setMockTime c time)
  end.

Fixpoint run (ops : list Op) (c : Cache) : option Cache :=
  match ops with
  | [] => Some c
  | o :: r => c' ← step c o; run r c'
  end.

(** A state some sequence of public calls produces from a freshly
    constructed cache. *)
Definition reachable (c : Cache) : Prop :=
  ∃ m ops, run ops (new m) = Some c.

(** *** Group bookkeeping *)

(** Total number of members across all groups of an index. *)
Definition members (t : gmap Z (list Item)) : nat :=
  map_fold (λ _ l n, (length l + n)%nat) 0%nat t.

(** An index [t] whose groups are keyed by [proj] agrees with the entry
    table [its]. *)
Definition index_ok (proj : Item → Z) (its : gmap string Item)
    (t : gmap Z (list Item)) : Prop :=
  (∀ g l, t !! g = Some l →
     l ≠ [] ∧ NoDup (key <$> l) ∧
     ∀ it, it ∈ l → its !! key it = Some it ∧ proj it = g)
  ∧ (∀ k it, its !! k = Some it → ∃ l, t !! proj it = Some l ∧ it ∈ l)
  ∧ members t = size its.

(** What the two [update...For...] insertion methods do to their tree,
    with the key of the index and the list insertion as parameters. *)
Definition groupAdd (proj : Item → Z) (ins : Item → list Item → list Item)
    (it : Item) (t : gmap Z (list Item)) : gmap Z (list Item) :=
  match t !! proj it with
  | None => <[proj it := ins it []]> t
  | Some l => <[proj it := ins it l]> t
  end.

(** What the two [update...ForItemRemoval] methods do to their tree. *)
Definition groupDel (proj : Item → Z) (it : Item)
    (t : gmap Z (list Item)) : gmap Z (list Item) :=
  match t !! proj it with
  | Some l =>
      if DLL.isEmpty (DLL.remove it l) then delete (proj it) t
      else <[proj it := DLL.remove it l]> t
  | None => t
  end.

Record Inv (c : Cache) : Prop := mkInv {
  inv_count : numItems c = Z.of_nat (size (items c));
  inv_key : ∀ k it, items c !! k = Some it → key it = k;
  inv_exp : index_ok expTime (items c) (expTree c);
  inv_prio : index_ok priority (items c) (priorityTree c);
}.

(** The entry the eviction block removes from a state: the head of the
    least expiration group when that group has expired, the head of the
    least priority group otherwise. *)
Definition chosen_by_expiry (c : Cache) (it : Item) : Prop :=
  expTime it <= mockTime c ∧
  (∃ rest, expTree c !! expTime it = Some (it :: rest)) ∧
  ∀ k' it', items c !! k' = Some it' → expTime it <= expTime it'.

Definition chosen_by_priority (c : Cache) (it : Item) : Prop :=
  (∀ k' it', items c !! k' = Some it' → mockTime c < expTime it') ∧
  (∃ rest, priorityTree c !! priority it = Some (it :: rest)) ∧
  ∀ k' it', items c !! k' = Some it' → priority it <= priority it'.

(** *** Recency of use

    A call sequence is replayed together with a log that remembers, for
    every key, the number of the last call that touched it: a [get] of a
    key that is present with its expiration time ahead of the clock, or
    a [set] that (re)inserted it. *)
Record Traced : Type := mkTraced {
  state : Cache;
  clock : nat;
  lastTouch : gmap string nat;
}.

Definition newT (maxItems : Z) : Traced := mkTraced (new maxItems) 0 ∅.

Definition stepT (s : Traced) (o : Op) : option Traced :=
  match o with
  | OpGet k =>
      Some (mkTraced (get (state s) k).1 (S (clock s))
              (match items (state s) !! k with
               | Some item =>
                   if decide (expTime item > mockTime (state s))
                   then <[k := clock s]> (lastTouch s)
                   else lastTouch s
               | None => lastTouch s
               end))
  | OpSet k v p e =>
      c' ← set (state s) k v p e;
      Some (mkTraced c' (S (clock s)) (<[k := clock s]> (lastTouch s)))
  | OpSetMockTime time =>
      Some (mkTraced (setMockTime (state s) time) (S (clock s)) (lastTouch s))
  end.

Fixpoint runT (ops : list Op) (s : Traced) : option Traced :=
  match ops with
  | [] => Some s
  | o :: r => s' ← stepT s o; runT r s'
  end.

Definition stamp (log : gmap string nat) (it : Item) : nat :=
  default 0%nat (log !! key it).

(** Every group of [t] lists its members from the least to the most
    recently touched, and every member has been touched. *)
Definition recency (log : gmap string nat) (now : nat)
    (t : gmap Z (list Item)) : Prop :=
  ∀ g l, t !! g = Some l →
    StronglySorted (λ a b, (stamp log a < stamp log b)%nat) l ∧
    ∀ it, it ∈ l → ∃ n, log !! key it = Some n ∧ (n < now)%nat.

(** The invariant of a replayed call sequence. *)
Definition TInv (s : Traced) : Prop :=
  Inv (state s) ∧ recency (lastTouch s) (clock s) (priorityTree (state s)).

End Operations.

(** *** States used to instantiate the theorems

    The black-box tests of [index.test.ts] on a cache of capacity 2. *)
Definition expired_ops : list (@Op Z) :=
  [OpSet "A" 1 15 100; OpSet "B" 2 5 103; OpSetMockTime 100].

Definition expired_full : Cache Z :=
  default (new 2) (run expired_ops (new 2)).

Definition lru_ops : list (@Op Z) :=
  [OpSet "A" 1 15 100; OpSet "B" 2 15 103; OpGet "A"].

Definition lru_full : Traced (T := Z) :=
  default (newT 2) (runT lru_ops (newT 2)).

Definition pair_ops : list (@Op Z) := [OpSet "A" 1 15 100; OpSet "B" 2 15 103].

Definition pair : Cache Z := default (new 2) (run pair_ops (new 2)).

(* ===================================================================== *)
(** ** The linked list *)
(* ===================================================================== *)

Section DLLFacts.

Context {T : Type}.
Implicit Types (it x : Item T) (l : list (Item T)).

Lemma remove_absent it l : key it ∉ key <$> l → DLL.remove it l = l.
Proof.
  induction l as [|x r IH]; simpl; [done|].
  intros Hn. apply not_elem_of_cons in Hn as [Hx Hr].
  destruct (decide (key x = key it)); [congruence|]. by rewrite IH.
Qed.

Lemma remove_split it l :
  key it ∈ key <$> l →
  ∃ l1 x l2, l = l1 ++ x :: l2 ∧ key x = key it ∧
             (key it ∉ key <$> l1) ∧ DLL.remove it l = l1 ++ l2.
Proof.
  induction l as [|y r IH]; simpl.
  - intros H. by apply elem_of_nil in H.
  - intros H. destruct (decide (key y = key it)) as [E|N].
    + exists [], y, r. split_and!; [done|done| |done]. simpl. apply not_elem_of_nil.
    + apply elem_of_cons in H as [H|H]; [congruence|].
      destruct (IH H) as (l1 & x & l2 & -> & Hk & Hn & Hr).
      exists (y :: l1), x, l2. split_and!; [done|done| |by rewrite Hr].
      simpl. apply not_elem_of_cons. split; [congruence|done].
Qed.

Lemma remove_sublist it l : DLL.remove it l `sublist_of` l.
Proof.
  induction l as [|x r IH]; simpl; [done|].
  destruct (decide (key x = key it)).
  - by apply sublist_cons.
  - by apply sublist_skip.
Qed.

Lemma remove_NoDup it l : NoDup (key <$> l) → NoDup (key <$> DLL.remove it l).
Proof.
  intros H. eapply sublist_NoDup; [exact H|].
  apply fmap_sublist, remove_sublist.
Qed.

Lemma remove_length it l :
  key it ∈ key <$> l → S (length (DLL.remove it l)) = length l.
Proof.
  intros H. destruct (remove_split it l H) as (l1 & x & l2 & -> & _ & _ & ->).
  rewrite !length_app. simpl. lia.
Qed.

Lemma remove_elem_of it l x :
  NoDup (key <$> l) →
  x ∈ DLL.remove it l ↔ x ∈ l ∧ key x ≠ key it.
Proof.
  induction l as [|y r IH]; simpl; intros Hnd.
  - split; [intros H; by apply elem_of_nil in H|intros [H _]; by apply elem_of_nil in H].
  - apply NoDup_cons in Hnd as [Hy Hnd].
    destruct (decide (key y = key it)) as [E|N].
    + split.
      * intros Hx. split; [by apply elem_of_cons; right|].
        intros Hk. apply Hy. rewrite E, <- Hk. by apply list_elem_of_fmap_2.
      * intros [Hx Hk]. apply elem_of_cons in Hx as [->|Hx]; [congruence|done].
    + rewrite !elem_of_cons, IH by done. split.
      * intros [->|[? ?]]; [by split; [left|]|by split; [right|]].
      * intros [[->|?] ?]; [by left|by right].
Qed.

Lemma remove_head_cons it l : DLL.remove it (it :: l) = l.
Proof. simpl. by rewrite decide_True. Qed.

End DLLFacts.

(* ===================================================================== *)
(** ** The ordered index *)
(* ===================================================================== *)

Section AvlFacts.

Context {V : Type}.
Implicit Types (t : gmap Z V).

Lemma least_foldr_None (kvs : list (Z * V)) :
  foldr Avl.least None kvs = None → kvs = [].
Proof.
  destruct kvs as [|kv r]; [done|]. simpl. unfold Avl.least.
  destruct (foldr _ _ r); [case_decide|]; done.
Qed.

Lemma least_foldr_Some (kvs : list (Z * V)) kv :
  foldr Avl.least None kvs = Some kv →
  kv ∈ kvs ∧ ∀ kv', kv' ∈ kvs → kv.1 <= kv'.1.
Proof.
  revert kv. induction kvs as [|x r IH]; intros kv; simpl; [done|].
  unfold Avl.least at 1. destruct (foldr _ _ r) as [kv0|] eqn:E.
  - destruct (IH kv0 eq_refl) as [Hin Hle].
    case_decide as Hd; intros [= <-].
    + split; [by left|]. intros kv' [->|H]%elem_of_cons; [lia|].
      specialize (Hle _ H). lia.
    + split; [by right|]. intros kv' [->|H]%elem_of_cons; [lia|by apply Hle].
  - intros [= <-]. apply least_foldr_None in E as ->.
    split; [by left|]. intros kv' [->|H]%elem_of_cons; [lia|].
    by apply elem_of_nil in H.
Qed.

Lemma min_None t : Avl.min t = None → t = ∅.
Proof.
  unfold Avl.min. intros H%least_foldr_None. by apply map_to_list_empty_iff.
Qed.

Lemma min_Some t g v :
  Avl.min t = Some (g, v) →
  t !! g = Some v ∧ ∀ g' v', t !! g' = Some v' → g <= g'.
Proof.
  unfold Avl.min. intros [Hin Hle]%least_foldr_Some. split.
  - by apply elem_of_map_to_list in Hin.
  - intros g' v' H. apply elem_of_map_to_list in H. by apply Hle in H.
Qed.

Lemma min_is_Some t g v : t !! g = Some v → is_Some (Avl.min t).
Proof.
  intros H. destruct (Avl.min t) eqn:E; [eauto|].
  apply min_None in E. subst. by rewrite lookup_empty in H.
Qed.

End AvlFacts.

Section MembersFacts.

Context {T : Type}.
Implicit Types (t : gmap Z (list (Item T))).

Lemma members_empty : members (T := T) ∅ = 0%nat.
Proof. unfold members. by rewrite map_fold_empty. Qed.

Lemma members_insert_None t g l :
  t !! g = None → members (<[g := l]> t) = (length l + members t)%nat.
Proof.
  intros H. unfold members. rewrite map_fold_insert_L; [done| |done].
  intros. lia.
Qed.

Lemma members_delete t g l :
  t !! g = Some l → members t = (length l + members (delete g t))%nat.
Proof.
  intros H. rewrite <- (insert_delete_id t g l) at 1 by done.
  apply members_insert_None, lookup_delete_eq.
Qed.

Lemma members_insert_Some t g l l' :
  t !! g = Some l →
  (members (<[g := l']> t) + length l = length l' + members t)%nat.
Proof.
  intros H. rewrite <- insert_delete_eq.
  rewrite members_insert_None by apply lookup_delete_eq.
  rewrite (members_delete t g l H). lia.
Qed.

End MembersFacts.

(* ===================================================================== *)
(** ** Agreement of an index with the entry table *)
(* ===================================================================== *)

Section IndexFacts.

Context {T : Type}.
Implicit Types (it x : Item T) (l : list (Item T))
  (t : gmap Z (list (Item T))) (its : gmap string (Item T)).

Variable proj : Item T → Z.

Lemma index_ok_empty : index_ok proj (∅ : gmap string (Item T)) ∅.
Proof.
  split_and!.
  - intros g l H. by rewrite lookup_empty in H.
  - intros k it H. by rewrite lookup_empty in H.
  - by rewrite members_empty, map_size_empty.
Qed.

(** No member of any group carries a key the table does not hold. *)
Lemma index_ok_fresh its t g l it :
  index_ok proj its t → its !! key it = None → t !! g = Some l →
  key it ∉ key <$> l.
Proof.
  intros (H1 & _ & _) Hn Hg Hin.
  apply list_elem_of_fmap in Hin as (x & Hk & Hx).
  destruct (H1 g l Hg) as (_ & _ & Hm). destruct (Hm x Hx) as [Hl _].
  rewrite <- Hk in Hl. congruence.
Qed.

(** A present item sits in the group of its own key, and nowhere else. *)
Lemma index_ok_member its t it :
  index_ok proj its t → its !! key it = Some it →
  ∃ l, t !! proj it = Some l ∧ it ∈ l ∧ NoDup (key <$> l).
Proof.
  intros (H1 & H2 & _) Hit. destruct (H2 _ _ Hit) as (l & Hl & Hin).
  exists l. split_and!; [done|done|]. by destruct (H1 _ _ Hl) as (_ & ? & _).
Qed.

Lemma index_ok_add its t it (ins : Item T → list (Item T) → list (Item T)) :
  (∀ l, ins it l ≡ₚ it :: l) →
  index_ok proj its t → its !! key it = None →
  index_ok proj (<[key it := it]> its) (groupAdd proj ins it t).
Proof.
  intros Hins Hok Hnone. pose proof Hok as (H1 & H2 & H3).
  assert (Hgrp : ∃ l0, groupAdd proj ins it t = <[proj it := ins it l0]> t ∧
            (t !! proj it = Some l0 ∨ t !! proj it = None ∧ l0 = [])).
  { unfold groupAdd. destruct (t !! proj it) as [l0|] eqn:E; eauto. }
  destruct Hgrp as (l0 & -> & Hl0).
  assert (Hfresh : key it ∉ key <$> l0).
  { destruct Hl0 as [Hl0|[_ ->]]; [by eapply index_ok_fresh|apply not_elem_of_nil]. }
  assert (Hold : ∀ x, x ∈ l0 → its !! key x = Some x ∧ proj x = proj it).
  { destruct Hl0 as [Hl0|[_ ->]]; [by apply (H1 _ _ Hl0)|].
    intros x Hx. by apply elem_of_nil in Hx. }
  split_and!.
  - intros g l. rewrite lookup_insert. case_decide as Hg.
    + subst g. intros [= <-]. split_and!.
      * intros E. specialize (Hins l0). rewrite E in Hins.
        by apply Permutation_nil_cons in Hins.
      * rewrite (Hins l0). simpl. apply NoDup_cons. split; [done|].
        destruct Hl0 as [Hl0|[_ ->]]; [by apply (H1 _ _ Hl0)|apply NoDup_nil_2].
      * intros x Hx. rewrite (Hins l0) in Hx.
        apply elem_of_cons in Hx as [->|Hx]; [by rewrite lookup_insert_eq|].
        destruct (Hold x Hx) as [Hx1 Hx2]. split; [|done].
        rewrite lookup_insert_ne; [done|]. intros E. rewrite <- E in Hx1. congruence.
    + intros Hl. destruct (H1 _ _ Hl) as (Hne & Hnd & Hm). split_and!; [done..|].
      intros x Hx. destruct (Hm x Hx) as [Hx1 Hx2]. split; [|done].
      rewrite lookup_insert_ne; [done|]. intros E. rewrite <- E in Hx1. congruence.
  - intros k x. rewrite lookup_insert. case_decide as Hk.
    + intros [= <-]. exists (ins it l0). rewrite lookup_insert_eq. split; [done|].
      rewrite (Hins l0). by left.
    + intros Hx. destruct (H2 _ _ Hx) as (l & Hl & Hin).
      destruct (decide (proj x = proj it)) as [E|N].
      * rewrite E in *. exists (ins it l0). rewrite lookup_insert_eq. split; [done|].
        rewrite (Hins l0). right.
        destruct Hl0 as [Hl0|[Hl0 _]]; congruence.
      * exists l. by rewrite lookup_insert_ne.
  - rewrite map_size_insert_None by done.
    assert (Hlen : length (ins it l0) = S (length l0)) by by rewrite (Hins l0).
    destruct Hl0 as [Hl0|[Hl0 ->]].
    + pose proof (members_insert_Some t _ _ (ins it l0) Hl0). lia.
    + rewrite members_insert_None by done. simpl in Hlen. lia.
Qed.

Lemma index_ok_del its t it :
  (∀ k x, its !! k = Some x → key x = k) →
  index_ok proj its t → its !! key it = Some it →
  index_ok proj (delete (key it) its) (groupDel proj it t).
Proof.
  intros Hkey Hok Hit. pose proof Hok as (H1 & H2 & H3).
  destruct (index_ok_member _ _ _ Hok Hit) as (l & Hl & Hin & Hnd).
  assert (Hkin : key it ∈ key <$> l) by by apply list_elem_of_fmap_2.
  pose proof (remove_length it l Hkin) as Hlen.
  destruct (H1 _ _ Hl) as (_ & _ & Hm).
  assert (Hsize : S (size (delete (key it) its)) = size its).
  { rewrite map_size_delete, Hit. simpl.
    assert (size its ≠ 0%nat); [|lia].
    intros E%map_size_empty_iff. subst. by rewrite lookup_empty in Hit. }
  assert (Hother : ∀ g l', g ≠ proj it → t !! g = Some l' →
            l' ≠ [] ∧ NoDup (key <$> l') ∧
            ∀ x, x ∈ l' → delete (key it) its !! key x = Some x ∧ proj x = g).
  { intros g l' Hg Hl'. destruct (H1 _ _ Hl') as (? & ? & Hm').
    split_and!; [done..|]. intros x Hx. destruct (Hm' x Hx) as [Hx1 Hx2].
    split; [|done]. rewrite lookup_delete_ne; [done|].
    intros E. rewrite <- E in Hx1. congruence. }
  assert (Hrem : ∀ x, x ∈ DLL.remove it l →
            delete (key it) its !! key x = Some x ∧ proj x = proj it).
  { intros x [Hx Hk]%remove_elem_of; [|done]. destruct (Hm x Hx) as [Hx1 Hx2].
    split; [|done]. by rewrite lookup_delete_ne. }
  assert (Hkeep : ∀ k x, delete (key it) its !! k = Some x →
            proj x = proj it → x ∈ DLL.remove it l).
  { intros k x Hx Hp. rewrite lookup_delete_Some in Hx. destruct Hx as [Hk Hx].
    destruct (H2 _ _ Hx) as (l' & Hl' & Hin'). rewrite Hp, Hl in Hl'.
    injection Hl' as <-. apply remove_elem_of; [done|]. split; [done|].
    rewrite (Hkey _ _ Hx). congruence. }
  unfold groupDel. rewrite Hl.
  destruct (DLL.remove it l) as [|y r] eqn:Er; simpl.
  - split_and!.
    + intros g l'. rewrite lookup_delete_Some. intros [Hg Hl']. by apply Hother.
    + intros k x Hx. destruct (decide (proj x = proj it)) as [E|N].
      * apply (Hkeep k x Hx) in E. by apply elem_of_nil in E.
      * rewrite lookup_delete_Some in Hx. destruct Hx as [Hk Hx].
        destruct (H2 _ _ Hx) as (l' & Hl' & Hin'). exists l'.
        by rewrite lookup_delete_ne.
    + pose proof (members_delete t _ _ Hl). simpl in Hlen. lia.
  - rewrite <- Er in *. split_and!.
    + intros g l'. rewrite lookup_insert. case_decide as Hg.
      * subst g. intros [= <-]. split_and!; [by rewrite Er|by apply remove_NoDup|done].
      * intros Hl'. by apply Hother.
    + intros k x Hx. destruct (decide (proj x = proj it)) as [E|N].
      * exists (DLL.remove it l). rewrite E, lookup_insert_eq. split; [done|].
        by eapply Hkeep.
      * rewrite lookup_delete_Some in Hx. destruct Hx as [Hk Hx].
        destruct (H2 _ _ Hx) as (l' & Hl' & Hin'). exists l'.
        by rewrite lookup_insert_ne.
    + pose proof (members_insert_Some t _ _ (DLL.remove it l) Hl). lia.
Qed.

(** Reordering one group leaves the agreement intact. *)
Lemma index_ok_reorder its t g l l' :
  index_ok proj its t → t !! g = Some l → l' ≡ₚ l →
  index_ok proj its (<[g := l']> t).
Proof.
  intros (H1 & H2 & H3) Hl Hp. destruct (H1 _ _ Hl) as (Hne & Hnd & Hm).
  split_and!.
  - intros g0 l0. rewrite lookup_insert. case_decide as Hg.
    + subst g0. intros [= <-]. split_and!.
      * intros ->. by apply Permutation_nil_l in Hp.
      * by rewrite Hp.
      * intros x Hx. rewrite Hp in Hx. by apply Hm.
    + apply H1.
  - intros k x Hx. destruct (H2 _ _ Hx) as (l0 & Hl0 & Hin).
    destruct (decide (proj x = g)) as [E|N].
    + exists l'. rewrite E, lookup_insert_eq. split; [done|].
      rewrite Hp. rewrite E, Hl in Hl0. by injection Hl0 as <-.
    + exists l0. by rewrite lookup_insert_ne.
  - pose proof (members_insert_Some t _ _ l' Hl) as Hmem.
    apply Permutation_length in Hp. lia.
Qed.

End IndexFacts.

(* ===================================================================== *)
(** ** Field-wise description of [addItem] and [deleteItem] *)
(* ===================================================================== *)

Section Fields.

Context {T : Type}.
Implicit Types (c : Cache T) (it item : Item T).

Lemma addItem_fields k v p e c :
  maxItems (addItem k v p e c) = maxItems c ∧
  mockTime (addItem k v p e c) = mockTime c ∧
  items (addItem k v p e c) = <[k := mkItem k v e p]> (items c) ∧
  numItems (addItem k v p e c) = numItems c + 1 ∧
  expTree (addItem k v p e c)
    = groupAdd expTime DLL.insertFirst (mkItem k v e p) (expTree c) ∧
  priorityTree (addItem k v p e c)
    = groupAdd priority DLL.insertLast (mkItem k v e p) (priorityTree c).
Proof.
  unfold addItem, updatePriorityTreeAndLinkedListForPriority,
    updateExpTreeAndLinkedListForExpTime, groupAdd, Avl.findKey, Avl.insert,
    Avl.mutated.
  simpl. destruct (expTree c !! e); simpl; destruct (priorityTree c !! p); done.
Qed.

Lemma deleteItem_fields item c :
  maxItems (deleteItem item c) = maxItems c ∧
  mockTime (deleteItem item c) = mockTime c ∧
  items (deleteItem item c) = delete (key item) (items c) ∧
  numItems (deleteItem item c) = numItems c - 1 ∧
  expTree (deleteItem item c) = groupDel expTime item (expTree c) ∧
  priorityTree (deleteItem item c) = groupDel priority item (priorityTree c).
Proof.
  unfold deleteItem, updatePriorityTreeAndLinkedListForItemRemoval,
    updateExpTreeAndLinkedListForItemRemoval, groupDel, Avl.removeNode,
    Avl.mutated.
  destruct (expTree c !! expTime item) as [l|]; simpl;
    [destruct (DLL.isEmpty (DLL.remove item l)); simpl|];
    (destruct (priorityTree c !! priority item) as [l'|]; simpl;
       [destruct (DLL.isEmpty (DLL.remove item l')); simpl|]); done.
Qed.

Lemma insertFirst_perm it (l : list (Item T)) : DLL.insertFirst it l ≡ₚ it :: l.
Proof. done. Qed.

Lemma insertLast_perm it (l : list (Item T)) : DLL.insertLast it l ≡ₚ it :: l.
Proof. unfold DLL.insertLast. by rewrite Permutation_app_comm. Qed.

End Fields.

(* ===================================================================== *)
(** ** The representation invariant is kept by every method *)
(* ===================================================================== *)

Section Invariant.

Context {T : Type}.
Implicit Types (c : Cache T) (it item : Item T).

Lemma Inv_new m : Inv (new (T := T) m).
Proof.
  split; simpl.
  - by rewrite map_size_empty.
  - intros k it H. by rewrite lookup_empty in H.
  - apply index_ok_empty.
  - apply index_ok_empty.
Qed.

Lemma Inv_addItem k v p e c :
  Inv c → items c !! k = None → Inv (addItem k v p e c).
Proof.
  intros [Hc Hk He Hp] Hn.
  destruct (addItem_fields k v p e c) as (_ & _ & Hi & Hnum & Het & Hpt).
  split.
  - rewrite Hnum, Hi, map_size_insert_None by done. lia.
  - rewrite Hi. intros k' it. rewrite lookup_insert. case_decide.
    + by intros [= <-].
    + apply Hk.
  - rewrite Hi, Het. apply (index_ok_add expTime _ _ (mkItem k v e p));
      [apply insertFirst_perm|done|done].
  - rewrite Hi, Hpt. apply (index_ok_add priority _ _ (mkItem k v e p));
      [apply insertLast_perm|done|done].
Qed.

Lemma Inv_deleteItem item c :
  Inv c → items c !! key item = Some item → Inv (deleteItem item c).
Proof.
  intros [Hc Hk He Hp] Hit.
  destruct (deleteItem_fields item c) as (_ & _ & Hi & Hnum & Het & Hpt).
  split.
  - rewrite Hnum, Hi, map_size_delete, Hit. simpl.
    assert (size (items c) ≠ 0%nat); [|lia].
    intros E%map_size_empty_iff. rewrite E in Hit. by rewrite lookup_empty in Hit.
  - rewrite Hi. intros k it [_ H]%lookup_delete_Some. by apply Hk.
  - rewrite Hi, Het. by apply index_ok_del.
  - rewrite Hi, Hpt. by apply index_ok_del.
Qed.

Lemma Inv_setMockTime c time : Inv c → Inv (setMockTime c time).
Proof. intros [Hc Hk He Hp]. by split. Qed.

(** Under the invariant the list a present item refers to exists and
    holds the item exactly once. *)
Lemma Inv_prio_split c item :
  Inv c → items c !! key item = Some item →
  ∃ l1 l2, priorityTree c !! priority item = Some (l1 ++ item :: l2) ∧
           DLL.remove item (l1 ++ item :: l2) = l1 ++ l2 ∧
           (key item ∉ key <$> (l1 ++ l2)).
Proof.
  intros HI Hit.
  destruct (index_ok_member _ _ _ _ (inv_prio _ HI) Hit) as (l & Hl & Hin & Hnd).
  apply list_elem_of_split in Hin as (l1 & l2 & ->).
  exists l1, l2. split; [done|].
  rewrite fmap_app in Hnd. simpl in Hnd.
  apply NoDup_app in Hnd as (Hn1 & Hn12 & Hn2). apply NoDup_cons in Hn2 as [Hn2 _].
  assert (Hk1 : key item ∉ key <$> l1).
  { intros H. apply (Hn12 _ H). by left. }
  split.
  - clear -Hk1. induction l1 as [|x r IH]; simpl.
    + by rewrite decide_True.
    + apply not_elem_of_cons in Hk1 as [Hx Hr].
      rewrite decide_False by congruence. by rewrite IH.
  - rewrite fmap_app. intros [H|H]%elem_of_app; [by apply Hk1|by apply Hn2].
Qed.

Lemma get_live c k item :
  Inv c → items c !! k = Some item → expTime item > mockTime c →
  ∃ l1 l2,
    priorityTree c !! priority item = Some (l1 ++ item :: l2) ∧
    (key item ∉ key <$> (l1 ++ l2)) ∧
    get c k =
      (mkCache (maxItems c) (mockTime c) (items c) (numItems c) (expTree c)
         (<[priority item := l1 ++ l2 ++ [item]]> (priorityTree c)),
       Some (value item)).
Proof.
  intros HI Hit Hexp.
  assert (Hit' : items c !! key item = Some item).
  { by rewrite (inv_key _ HI _ _ Hit). }
  destruct (Inv_prio_split c item HI Hit') as (l1 & l2 & Hl & Hrem & Hnin).
  exists l1, l2. split_and!; [done..|].
  unfold get. rewrite Hit, decide_True, Hl by done.
  unfold Avl.mutated, DLL.insertLast. by rewrite Hrem, <- app_assoc.
Qed.

Lemma get_state c k :
  Inv c →
  get c k = (c, None) ∨
  ∃ item l1 l2,
    items c !! k = Some item ∧ expTime item > mockTime c ∧
    priorityTree c !! priority item = Some (l1 ++ item :: l2) ∧
    (key item ∉ key <$> (l1 ++ l2)) ∧
    get c k =
      (mkCache (maxItems c) (mockTime c) (items c) (numItems c) (expTree c)
         (<[priority item := l1 ++ l2 ++ [item]]> (priorityTree c)),
       Some (value item)).
Proof.
  intros HI. destruct (items c !! k) as [item|] eqn:Hit.
  - destruct (decide (expTime item > mockTime c)) as [Hexp|Hexp].
    + right. destruct (get_live c k item HI Hit Hexp) as (l1 & l2 & ? & ? & ?).
      by exists item, l1, l2.
    + left. unfold get. by rewrite Hit, decide_False.
  - left. unfold get. by rewrite Hit.
Qed.

Lemma Inv_get c k : Inv c → Inv (get c k).1.
Proof.
  intros HI. destruct (get_state c k HI) as [->|Hg]; [done|].
  destruct Hg as (item & l1 & l2 & Hit & _ & Hl & _ & ->).
  destruct HI as [Hc Hk He Hp]. split; simpl; [done..|].
  eapply index_ok_reorder; [done|done|].
  rewrite (Permutation_app_comm l2), <- Permutation_middle.
  apply Permutation_sym, Permutation_middle.
Qed.

End Invariant.

(* ===================================================================== *)
(** ** The eviction block and [set] *)
(* ===================================================================== *)

Section Eviction.

Context {T : Type}.
Implicit Types (c : Cache T) (it item : Item T).

Lemma index_min_head (proj : Item T → Z) its (t : gmap Z (list (Item T))) g l :
  index_ok proj its t → Avl.min t = Some (g, l) →
  ∃ it rest, l = it :: rest ∧ DLL.head l = Some it ∧
    its !! key it = Some it ∧ proj it = g ∧ t !! proj it = Some (it :: rest) ∧
    ∀ k' it', its !! k' = Some it' → proj it <= proj it'.
Proof.
  intros (H1 & H2 & _) [Hl Hmin]%min_Some.
  destruct (H1 _ _ Hl) as (Hne & _ & Hm).
  destruct l as [|it rest]; [done|]. exists it, rest.
  destruct (Hm it) as [Hit Hp]; [by left|].
  split_and!; [done|done|done|done|by rewrite Hp|].
  intros k' it' Hit'. destruct (H2 _ _ Hit') as (l' & Hl' & _).
  rewrite Hp. by eapply Hmin.
Qed.

Lemma index_min_None (proj : Item T → Z) its (t : gmap Z (list (Item T))) :
  index_ok proj its t → Avl.min t = None → its = ∅.
Proof.
  intros (_ & H2 & _) ->%min_None. apply map_empty. intros k.
  destruct (its !! k) as [it|] eqn:E; [|done].
  destruct (H2 _ _ E) as (l & Hl & _). by rewrite lookup_empty in Hl.
Qed.

Lemma evict_cases c :
  Inv c →
  (items c = ∅ ∧ evict c = Some c) ∨
  (∃ it, items c !! key it = Some it ∧ evict c = Some (deleteItem it c) ∧
         (chosen_by_expiry c it ∨ chosen_by_priority c it)).
Proof.
  intros HI. unfold evict.
  destruct (Avl.min (expTree c)) as [[et l]|] eqn:Emin.
  - right.
    destruct (index_min_head _ _ _ _ _ (inv_exp _ HI) Emin)
      as (it & rest & -> & Hh & Hit & Hp & Hl & Hle).
    case_decide as Hexp.
    + exists it. simpl. split_and!; [done|done|]. left.
      split_and!; [lia|by eexists|done].
    + destruct (Avl.min (priorityTree c)) as [[pr l']|] eqn:Pmin.
      * destruct (index_min_head _ _ _ _ _ (inv_prio _ HI) Pmin)
          as (it' & rest' & -> & Hh' & Hit' & Hp' & Hl' & Hle').
        exists it'. simpl. split_and!; [done|done|]. right.
        split_and!; [|by eexists|done].
        intros k0 it0 H0. specialize (Hle _ _ H0). lia.
      * apply (index_min_None _ _ _ (inv_prio _ HI)) in Pmin.
        rewrite Pmin in Hit. by rewrite lookup_empty in Hit.
  - left. split; [|done]. by eapply index_min_None; [apply (inv_exp _ HI)|].
Qed.

Lemma set_present c k v p e item :
  items c !! k = Some item →
  set c k v p e = Some (addItem k v p e (deleteItem item c)).
Proof. intros H. unfold set. by rewrite H. Qed.

Lemma set_absent c k v p e :
  items c !! k = None →
  set c k v p e =
    (c' ← (if decide (numItems c >= maxItems c) then evict c else Some c);
     Some (addItem k v p e c')).
Proof. intros H. unfold set. by rewrite H. Qed.

(** [set] on a state that satisfies the invariant: what it returns. *)
Lemma set_cases c k v p e :
  Inv c →
  ∃ c0, set c k v p e = Some (addItem k v p e c0) ∧ Inv c0 ∧
        items c0 !! k = None ∧ maxItems c0 = maxItems c ∧
        mockTime c0 = mockTime c ∧
        ((∃ item, items c !! k = Some item ∧ c0 = deleteItem item c) ∨
         (items c !! k = None ∧ numItems c < maxItems c ∧ c0 = c) ∨
         (items c !! k = None ∧ numItems c >= maxItems c ∧
          items c = ∅ ∧ c0 = c) ∨
         (items c !! k = None ∧ numItems c >= maxItems c ∧
          ∃ it, items c !! key it = Some it ∧ c0 = deleteItem it c ∧
                (chosen_by_expiry c it ∨ chosen_by_priority c it))).
Proof.
  intros HI. destruct (items c !! k) as [item|] eqn:Hk.
  - exists (deleteItem item c). rewrite (set_present _ _ _ _ _ _ Hk).
    assert (Hit : items c !! key item = Some item).
    { by rewrite (inv_key _ HI _ _ Hk). }
    destruct (deleteItem_fields item c) as (Hm & Ht & Hi & _).
    split_and!; [done|by apply Inv_deleteItem| |done|done|left; eauto].
    rewrite Hi, (inv_key _ HI _ _ Hk). apply lookup_delete_eq.
  - rewrite (set_absent _ _ _ _ _ Hk). case_decide as Hfull.
    + destruct (evict_cases c HI) as [[He ->]|(it & Hit & -> & Hch)].
      * exists c. simpl. split_and!; [done..|]. right; right; left. done.
      * exists (deleteItem it c).
        destruct (deleteItem_fields it c) as (Hm & Ht & Hi & _).
        split_and!; [done|by apply Inv_deleteItem| |done|done|].
        -- rewrite Hi. rewrite lookup_delete_ne; [done|]. congruence.
        -- right; right; right. split_and!; [done|done|]. eauto.
    + exists c. simpl. split_and!; [done..|]. right; left. split_and!; [done|lia|done].
Qed.

Lemma Inv_set c k v p e :
  Inv c → ∃ c', set c k v p e = Some c' ∧ Inv c'.
Proof.
  intros HI. destruct (set_cases c k v p e HI) as (c0 & -> & HI0 & Hn & _).
  eexists. split; [done|]. by apply Inv_addItem.
Qed.

Lemma Inv_step c o : Inv c → ∃ c', step c o = Some c' ∧ Inv c'.
Proof.
  intros HI. destruct o as [k|k v p e|time]; simpl.
  - eexists. split; [done|]. by apply Inv_get.
  - by apply Inv_set.
  - eexists. split; [done|]. by apply Inv_setMockTime.
Qed.

Lemma Inv_run ops c : Inv c → ∃ c', run ops c = Some c' ∧ Inv c'.
Proof.
  revert c. induction ops as [|o r IH]; intros c HI; simpl.
  - eauto.
  - destruct (Inv_step c o HI) as (c1 & -> & HI1). simpl. by apply IH.
Qed.

Lemma Inv_reachable c : reachable c → Inv c.
Proof.
  intros (m & ops & Hrun).
  destruct (Inv_run ops (new m) (Inv_new m)) as (c' & Hrun' & HI).
  congruence.
Qed.

(** No group of an index that agrees with the table holds a key the
    table does not hold. *)
Lemma Inv_absent_everywhere c k :
  Inv c → items c !! k = None →
  ∀ g l, expTree c !! g = Some l ∨ priorityTree c !! g = Some l →
         k ∉ key <$> l.
Proof.
  intros HI Hk g l [Hl|Hl] Hin;
    apply list_elem_of_fmap in Hin as (x & -> & Hx).
  - destruct (inv_exp _ HI) as (H1 & _). destruct (H1 _ _ Hl) as (_ & _ & Hm).
    destruct (Hm x Hx). congruence.
  - destruct (inv_prio _ HI) as (H1 & _). destruct (H1 _ _ Hl) as (_ & _ & Hm).
    destruct (Hm x Hx). congruence.
Qed.

End Eviction.

(* ===================================================================== *)
(** ** Priority groups are kept in order of last use *)
(* ===================================================================== *)

Section Recency.

Context {T : Type}.
Implicit Types (c : Cache T) (it item x : Item T) (l : list (Item T))
  (t : gmap Z (list (Item T))) (log : gmap string nat) (s : Traced (T := T)).

Lemma StronglySorted_sub {A} (R : relation A) (l l' : list A) :
  l' `sublist_of` l → StronglySorted R l → StronglySorted R l'.
Proof.
  induction 1 as [|a l1 l2 Hs IH|a l1 l2 Hs IH]; intros Hl.
  - done.
  - apply StronglySorted_cons in Hl as [Hf Hl].
    apply StronglySorted_cons. split; [|by apply IH].
    rewrite Forall_forall in *. intros b Hb. apply Hf.
    by eapply elem_of_sublist.
  - apply StronglySorted_cons in Hl as [_ Hl]. by apply IH.
Qed.

Lemma StronglySorted_agree {A} (R R' : relation A) (l : list A) :
  (∀ a b, a ∈ l → b ∈ l → R a b → R' a b) →
  StronglySorted R l → StronglySorted R' l.
Proof.
  induction l as [|a r IH]; intros Hag Hl; [constructor|].
  apply StronglySorted_cons in Hl as [Hf Hl].
  apply StronglySorted_cons. split.
  - rewrite Forall_forall in *. intros b Hb.
    apply Hag; [by left|by right|by apply Hf].
  - apply IH; [|done]. intros a' b' Ha Hb. apply Hag; by right.
Qed.

Lemma stamp_insert_ne log k n it :
  key it ≠ k → stamp (<[k := n]> log) it = stamp log it.
Proof. intros H. unfold stamp. by rewrite lookup_insert_ne. Qed.

Lemma stamp_insert_eq log n it : stamp (<[key it := n]> log) it = n.
Proof. unfold stamp. by rewrite lookup_insert_eq. Qed.

Lemma stamp_Some log it n : log !! key it = Some n → stamp log it = n.
Proof. intros H. unfold stamp. by rewrite H. Qed.

(** A group none of whose members carries key [k] reads the same after
    [k] has been touched. *)
Lemma group_touch_other log now k l :
  (k ∉ key <$> l) →
  StronglySorted (λ a b, (stamp log a < stamp log b)%nat) l ∧
  (∀ it, it ∈ l → ∃ n, log !! key it = Some n ∧ (n < now)%nat) →
  StronglySorted
    (λ a b, (stamp (<[k := now]> log) a < stamp (<[k := now]> log) b)%nat) l ∧
  (∀ it, it ∈ l →
     ∃ n, <[k := now]> log !! key it = Some n ∧ (n < S now)%nat).
Proof.
  intros Hk [Hs Ht].
  assert (Hne : ∀ x, x ∈ l → key x ≠ k).
  { intros x Hx E. apply Hk. rewrite <- E. by apply list_elem_of_fmap_2. }
  split.
  - eapply StronglySorted_agree; [|exact Hs]. intros a b Ha Hb. simpl.
    by rewrite !stamp_insert_ne by by apply Hne.
  - intros x Hx. destruct (Ht x Hx) as (n & Hn & Hlt). exists n.
    rewrite lookup_insert_ne by (intros E; by apply (Hne x Hx)).
    split; [done|lia].
Qed.

Lemma recency_empty now : recency (T := T) ∅ now ∅.
Proof. intros g l H. by rewrite lookup_empty in H. Qed.

Lemma recency_tick log now t : recency log now t → recency log (S now) t.
Proof.
  intros H g l Hl. destruct (H g l Hl) as [Hs Ht]. split; [done|].
  intros it Hit. destruct (Ht it Hit) as (n & ? & ?). exists n. split; [done|lia].
Qed.

Lemma recency_groupDel (proj : Item T → Z) log now t it :
  recency log now t → recency log now (groupDel proj it t).
Proof.
  intros H g l. unfold groupDel.
  destruct (t !! proj it) as [l0|] eqn:E; [|apply H].
  destruct (DLL.isEmpty (DLL.remove it l0)).
  - intros [_ Hl]%lookup_delete_Some. exact (H _ _ Hl).
  - rewrite lookup_insert. case_decide as Hg; [|exact (H g l)].
    intros [= <-]. destruct (H _ _ E) as [Hs Ht]. split.
    + eapply StronglySorted_sub; [apply remove_sublist|done].
    + intros x Hx. apply Ht. eapply elem_of_sublist; [exact Hx|].
      apply remove_sublist.
Qed.

(** Appending a freshly touched entry to its group keeps the order. *)
Lemma recency_groupAdd (proj : Item T → Z) log now t it :
  recency log now t →
  (∀ g l, t !! g = Some l → key it ∉ key <$> l) →
  recency (<[key it := now]> log) (S now) (groupAdd proj DLL.insertLast it t).
Proof.
  intros H Hfresh g l.
  assert (Hgrp : ∃ l0, groupAdd proj DLL.insertLast it t = <[proj it := l0 ++ [it]]> t ∧
            (t !! proj it = Some l0 ∨ l0 = [])).
  { unfold groupAdd, DLL.insertLast. destruct (t !! proj it) as [l0|] eqn:E; eauto. }
  destruct Hgrp as (l0 & -> & Hl0).
  assert (Hold : (key it ∉ key <$> l0) ∧
            StronglySorted (λ a b, (stamp log a < stamp log b)%nat) l0 ∧
            (∀ x, x ∈ l0 → ∃ n, log !! key x = Some n ∧ (n < now)%nat)).
  { destruct Hl0 as [Hl0| ->].
    - destruct (H _ _ Hl0). split_and!; [by eapply Hfresh|done|done].
    - split_and!; [apply not_elem_of_nil|constructor|].
      intros x Hx. by apply elem_of_nil in Hx. }
  destruct Hold as (Hk0 & Hs0 & Ht0).
  destruct (group_touch_other log now (key it) l0 Hk0 (conj Hs0 Ht0)) as [Hs1 Ht1].
  rewrite lookup_insert. case_decide as Hg.
  - intros [= <-]. split.
    + apply StronglySorted_app_2; [|done|repeat constructor].
      intros x1 x2 Hx1 ->%list_elem_of_singleton.
      rewrite stamp_insert_eq. destruct (Ht1 x1 Hx1) as (n & Hn & Hlt).
      rewrite (stamp_Some _ _ _ Hn).
      destruct (Ht0 x1 Hx1) as (n' & Hn' & Hlt').
      assert (key x1 ≠ key it).
      { intros E. apply Hk0. rewrite <- E. by apply list_elem_of_fmap_2. }
      rewrite lookup_insert_ne in Hn by done. assert (n = n') by congruence. lia.
    + intros x [Hx| ->%list_elem_of_singleton]%elem_of_app; [by apply Ht1|].
      exists now. rewrite lookup_insert_eq. split; [done|lia].
  - intros Hl. apply group_touch_other; [by eapply Hfresh|exact (H _ _ Hl)].
Qed.

Lemma TInv_new m : TInv (newT (T := T) m).
Proof. split; [apply Inv_new|apply recency_empty]. Qed.

(** On a live entry [get] detaches the node and appends it again. *)
Lemma get_live_tree c k item :
  Inv c → items c !! k = Some item → expTime item > mockTime c →
  priorityTree (get c k).1
    = groupAdd priority DLL.insertLast item
        (groupDel priority item (priorityTree c)) ∧
  ∀ g l, groupDel priority item (priorityTree c) !! g = Some l →
         key item ∉ key <$> l.
Proof.
  intros HI Hk Hexp.
  pose proof (inv_key _ HI _ _ Hk) as Hkey.
  assert (Hit : items c !! key item = Some item) by by rewrite Hkey.
  split.
  - destruct (Inv_prio_split c item HI Hit) as (l1 & l2 & Hl & Hrem & _).
    unfold get. rewrite Hk, decide_True, Hl by done. simpl.
    unfold groupDel, groupAdd, Avl.mutated. rewrite Hl, Hrem.
    destruct (l1 ++ l2) as [|y r] eqn:E; simpl.
    + rewrite lookup_delete_eq. by rewrite insert_delete_eq.
    + rewrite lookup_insert_eq. by rewrite insert_insert_eq.
  - intros g l Hl.
    eapply (index_ok_fresh priority (delete (key item) (items c)));
      [|apply lookup_delete_eq|exact Hl].
    apply index_ok_del; [apply (inv_key _ HI)|apply (inv_prio _ HI)|done].
Qed.

Lemma TInv_stepT s o : TInv s → ∃ s', stepT s o = Some s' ∧ TInv s'.
Proof.
  intros [HI Hr]. destruct o as [k|k v p e|time]; simpl.
  - eexists. split; [done|]. split; simpl; [by apply Inv_get|].
    destruct (items (state s) !! k) as [item|] eqn:Hk.
    + destruct (decide (expTime item > mockTime (state s))) as [Hexp|Hexp].
      * destruct (get_live_tree _ _ _ HI Hk Hexp) as [-> Hfresh].
        rewrite <- (inv_key _ HI _ _ Hk) at 1.
        apply recency_groupAdd; [by apply recency_groupDel|done].
      * unfold get. rewrite Hk, decide_False by done. simpl.
        by apply recency_tick.
    + unfold get. rewrite Hk. simpl. by apply recency_tick.
  - destruct (set_cases _ k v p e HI) as (c0 & -> & HI0 & Hn & _ & _ & Hcase).
    eexists. split; [done|]. split; cbn [state clock lastTouch];
      [by apply Inv_addItem|].
    destruct (addItem_fields k v p e c0) as (_ & _ & _ & _ & _ & ->).
    apply (recency_groupAdd priority _ _ _ (mkItem k v e p)).
    + destruct Hcase as [(item & _ & ->)|[(_ & _ & ->)|[(_ & _ & _ & ->)|
        (_ & _ & it & _ & -> & _)]]]; [|done|done|].
      * destruct (deleteItem_fields item (state s)) as (_ & _ & _ & _ & _ & ->).
        by apply recency_groupDel.
      * destruct (deleteItem_fields it (state s)) as (_ & _ & _ & _ & _ & ->).
        by apply recency_groupDel.
    + intros g l Hl. eapply (Inv_absent_everywhere c0 k); eauto.
  - eexists. split; [done|]. split; simpl; [by apply Inv_setMockTime|].
    by apply recency_tick.
Qed.

Lemma TInv_runT ops s : TInv s → ∃ s', runT ops s = Some s' ∧ TInv s'.
Proof.
  revert s. induction ops as [|o r IH]; intros s HI; simpl.
  - eauto.
  - destruct (TInv_stepT s o HI) as (s1 & -> & HI1). simpl. by apply IH.
Qed.

(** The replay drives the cache exactly as the plain call sequence. *)
Lemma runT_state ops s : state <$> runT ops s = run ops (state s).
Proof.
  revert s. induction ops as [|o r IH]; intros s; simpl; [done|].
  destruct o as [k|k v p e|time]; simpl.
  - apply IH.
  - destruct (set (state s) k v p e); simpl; [apply IH|done].
  - apply IH.
Qed.

Lemma runT_reachable m ops s :
  runT ops (newT m) = Some s → reachable (state s).
Proof.
  intros H. exists m, ops.
  change (new m) with (state (newT (T := T) m)).
  by rewrite <- runT_state, H.
Qed.

End Recency.

(* ===================================================================== *)
(** ** Properties of the public interface *)
(* ===================================================================== *)

Section Interface.

Context {T : Type}.
Implicit Types (c : Cache T) (it item : Item T).

(** The consistency of the counter, the table and the two indices (the
    property of C4), on the integral keys of this embedding.
    In every state reachable from a freshly constructed cache by
    [get], [set] and [setMockTime], [numItems] equals the size of the
    entry table, the total number of members of all expiration groups and
    the total number of members of all priority groups. *)
Theorem consistency_invariant c :
  reachable c →
  numItems c = Z.of_nat (size (items c)) ∧
  members (expTree c) = size (items c) ∧
  members (priorityTree c) = size (items c).
Proof.
  intros HI%Inv_reachable. destruct HI as [Hc _ (_ & _ & He) (_ & _ & Hp)].
  done.
Qed.

(** For a capacity of at least one the capacity bound is kept by every
    call. *)
Lemma capacity_step c o c' :
  Inv c → 1 <= maxItems c → numItems c <= maxItems c → step c o = Some c' →
  maxItems c' = maxItems c ∧ numItems c' <= maxItems c'.
Proof.
  intros HI Hm Hle. destruct o as [k|k v p e|time]; simpl.
  - intros [= <-]. destruct (get_state c k HI) as [->|Hg]; [done|].
    by destruct Hg as (item & l1 & l2 & _ & _ & _ & _ & ->).
  - destruct (set_cases c k v p e HI) as (c0 & -> & HI0 & Hn & Hmax & _ & Hcase).
    intros [= <-]. destruct (addItem_fields k v p e c0) as (-> & _ & _ & -> & _).
    split; [done|]. rewrite Hmax.
    destruct Hcase as [(item & _ & ->)|[(_ & Hlt & ->)|[(_ & Hfull & He & ->)|
      (_ & Hfull & it & _ & -> & _)]]].
    + destruct (deleteItem_fields item c) as (_ & _ & _ & -> & _). lia.
    + lia.
    + pose proof (inv_count _ HI) as Hc. rewrite He, map_size_empty in Hc. lia.
    + destruct (deleteItem_fields it c) as (_ & _ & _ & -> & _). lia.
  - by intros [= <-].
Qed.

Lemma capacity_run ops c c' :
  Inv c → 1 <= maxItems c → numItems c <= maxItems c → run ops c = Some c' →
  maxItems c' = maxItems c ∧ numItems c' <= maxItems c'.
Proof.
  revert c. induction ops as [|o r IH]; intros c HI Hm Hle; simpl.
  - by intros [= <-].
  - destruct (Inv_step c o HI) as (c1 & Hs & HI1). rewrite Hs. simpl.
    destruct (capacity_step c o c1 HI Hm Hle Hs) as [Hm1 Hle1].
    intros Hr. destruct (IH c1 HI1) as [? ?]; [lia|done|done|]. split; [congruence|done].
Qed.

(** C3 (amended). For every cache constructed with an integer capacity
    of at least one, after every sequence of calls (of [set], and also of
    [get] and [setMockTime]) that has run to completion [maxItems] is the
    capacity given and [numItems <= maxItems]; a sequence that ends with
    a [set] is one instance, so the bound holds after each completed
    [set]. *)
Theorem capacity_bound_positive m (ops : list (@Op T)) c :
  1 <= m → run ops (new m) = Some c →
  maxItems c = m ∧ numItems c <= maxItems c.
Proof.
  intros Hm Hr.
  destruct (capacity_run ops (new m) c (Inv_new m)) as [? ?]; simpl; [lia|lia|done|done].
Qed.

(** C7, evaluated: the constructor accepts capacity zero, and [set] on
    the resulting empty cache inserts the entry instead of leaving the
    cache empty. *)
Theorem zero_capacity_set_inserts k (v : T) p e :
  items (new (T := T) 0) = ∅ ∧ maxItems (new (T := T) 0) = 0 ∧
  ∃ c, set (new 0) k v p e = Some c ∧
       items c = {[k := mkItem k v e p]} ∧ items c ≠ ∅ ∧ numItems c = 1.
Proof.
  split; [done|]. split; [done|].
  exists (addItem k v p e (new 0)). split; [reflexivity|].
  destruct (addItem_fields k v p e (new 0)) as (_ & _ & -> & -> & _).
  simpl. split_and!; [done| |done].
  apply insert_non_empty.
Qed.

(** C5. [get] on a present entry with [expTime <= mockTime] returns
    [undefined], leaves [numItems] alone, and leaves the entry in the
    entry table and in both indices; it is the very result of [get] on a
    key the table does not hold. *)
Theorem get_expired_is_absent c k item :
  items c !! k = Some item → expTime item <= mockTime c →
  (get c k).2 = None ∧
  numItems (get c k).1 = numItems c ∧
  items (get c k).1 = items c ∧
  expTree (get c k).1 = expTree c ∧
  priorityTree (get c k).1 = priorityTree c ∧
  ∀ k', items c !! k' = None → get c k' = get c k.
Proof.
  intros Hk Hexp. unfold get. rewrite Hk.
  rewrite decide_False by lia. simpl. split_and!; [done..|].
  intros k' ->. done.
Qed.

(** C10. [get] on a present entry with [expTime <= mockTime] returns the
    state it was given: no field changes, in particular not the order of
    the entry's priority group. *)
Theorem get_expired_state_unchanged c k item :
  items c !! k = Some item → expTime item <= mockTime c →
  (get c k).1 = c.
Proof.
  intros Hk Hexp. unfold get. rewrite Hk. by rewrite decide_False by lia.
Qed.


(** The state [set] leaves behind on a key the table already holds. *)
Lemma set_update_state c k v p e item :
  Inv c → items c !! k = Some item →
  key item = k ∧
  set c k v p e = Some (addItem k v p e (deleteItem item c)) ∧
  Inv (deleteItem item c) ∧
  items (deleteItem item c) = delete k (items c) ∧
  Inv (addItem k v p e (deleteItem item c)) ∧
  items (addItem k v p e (deleteItem item c))
    = <[k := mkItem k v e p]> (items c) ∧
  numItems (addItem k v p e (deleteItem item c)) = numItems c.
Proof.
  intros HI Hk. pose proof (inv_key _ HI _ _ Hk) as Hkey.
  assert (Hit : items c !! key item = Some item) by by rewrite Hkey.
  destruct (deleteItem_fields item c) as (_ & _ & Hi & Hn & _).
  destruct (addItem_fields k v p e (deleteItem item c)) as (_ & _ & Hi' & Hn' & _).
  pose proof (Inv_deleteItem item c HI Hit) as HI0.
  rewrite Hkey in Hi.
  split_and!; [done|by apply set_present|done|done| | |].
  - apply Inv_addItem; [done|]. rewrite Hi. apply lookup_delete_eq.
  - rewrite Hi', Hi. apply insert_delete_eq.
  - rewrite Hn', Hn. lia.
Qed.

(** C9. [set] on a key the table already holds evicts nothing, whatever
    the counter and the capacity are: the call returns, the table
    afterwards is the old table with the key rebound, so that every other
    key is bound to the same entry as before, and the counter is
    unchanged. *)
Theorem set_update_evicts_nothing c k v p e item :
  reachable c → items c !! k = Some item →
  ∃ c', set c k v p e = Some c' ∧
        items c' = <[k := mkItem k v e p]> (items c) ∧
        numItems c' = numItems c ∧
        ∀ k', k' ≠ k → items c' !! k' = items c !! k'.
Proof.
  intros HI%Inv_reachable Hk.
  destruct (set_update_state c k v p e item HI Hk) as (_ & Hs & _ & _ & _ & Hi & Hn).
  eexists. split_and!; [done|done|done|].
  intros k' Hk'. rewrite Hi. by apply lookup_insert_ne.
Qed.



(** Expired entries are evicted first (the property of C1), on the
    integral keys of this embedding.
    When [set] has to evict (absent key, [numItems >= maxItems]) in a
    reachable state in which some present entry has
    [expTime <= mockTime], the entry it removes is a present entry with
    [expTime <= mockTime]: it is the head of the expiration group with
    the least expiration time, whatever the priorities and the positions
    in the priority groups are. *)
Theorem expired_entry_evicted_first c k v p e :
  reachable c → items c !! k = None → numItems c >= maxItems c →
  (∃ k0 it0, items c !! k0 = Some it0 ∧ expTime it0 <= mockTime c) →
  ∃ it,
    items c !! key it = Some it ∧ expTime it <= mockTime c ∧
    evict c = Some (deleteItem it c) ∧
    set c k v p e = Some (addItem k v p e (deleteItem it c)) ∧
    items (addItem k v p e (deleteItem it c))
      = <[k := mkItem k v e p]> (delete (key it) (items c)) ∧
    (∃ rest, expTree c !! expTime it = Some (it :: rest)).
Proof.
  intros HI%Inv_reachable Hk Hfull (k0 & it0 & Hit0 & Hexp0).
  destruct (evict_cases c HI) as [[He _]|(it & Hit & Hev & Hch)].
  { rewrite He in Hit0. by rewrite lookup_empty in Hit0. }
  destruct Hch as [(Hexp & Hhead & _)|(Hlive & _)].
  - exists it. split_and!; [done|done|done| | |done].
    + rewrite (set_absent _ _ _ _ _ Hk), decide_True, Hev by done. done.
    + destruct (addItem_fields k v p e (deleteItem it c)) as (_ & _ & -> & _).
      by destruct (deleteItem_fields it c) as (_ & _ & -> & _).
  - specialize (Hlive _ _ Hit0). lia.
Qed.

(** Lowest priority first, least recently used within it (the property
    of C2), on the integral keys of this embedding.
    When [set] has to evict (absent key, [numItems >= maxItems]) in a
    reachable state in which no present entry has [expTime <= mockTime],
    [set] returns, it removes exactly one entry unless the table is
    empty, and every entry it removes
    - has the least priority among the present entries,
    - is the head of the list of its priority group, and
    - was last touched (by a [get] while it was present and unexpired
      or by the [set] that inserted it) before every other present entry
      of the same priority. *)
Theorem lowest_priority_lru_evicted m ops (s : Traced (T := T)) k v p e :
  runT ops (newT m) = Some s →
  items (state s) !! k = None →
  numItems (state s) >= maxItems (state s) →
  (∀ k' it', items (state s) !! k' = Some it' →
             mockTime (state s) < expTime it') →
  ∃ c', set (state s) k v p e = Some c' ∧
    (items (state s) ≠ ∅ →
       ∃ it, items (state s) !! key it = Some it ∧
             items c' = <[k := mkItem k v e p]>
                          (delete (key it) (items (state s)))) ∧
    ∀ it, items (state s) !! key it = Some it → items c' !! key it = None →
      (∀ k' it', items (state s) !! k' = Some it' →
                 priority it <= priority it') ∧
      (∃ rest, priorityTree (state s) !! priority it = Some (it :: rest)) ∧
      (∀ k' it', items (state s) !! k' = Some it' →
                 priority it' = priority it → it' ≠ it →
                 ∃ n n', lastTouch s !! key it = Some n ∧
                         lastTouch s !! k' = Some n' ∧ (n < n')%nat).
Proof.
  intros Hrun Hk Hfull Hlive.
  destruct (TInv_runT ops (newT m) (TInv_new m)) as (s' & Hrun' & HI & Hrec).
  assert (s' = s) as -> by congruence. clear Hrun'.
  destruct (set_cases (state s) k v p e HI)
    as (c0 & -> & _ & _ & _ & _ & Hcase).
  eexists. split; [done|].
  destruct (addItem_fields k v p e c0) as (_ & _ & -> & _).
  destruct Hcase as [(item & Hk' & _)|[(_ & Hlt & _)|[(_ & _ & He & ->)|
    (_ & _ & it0 & Hit0 & -> & Hch)]]]; [congruence|lia| |].
  - split; [done|]. intros it Hit. rewrite He in Hit.
    by rewrite lookup_empty in Hit.
  - destruct (deleteItem_fields it0 (state s)) as (_ & _ & -> & _).
    split; [intros _; by exists it0|].
    destruct Hch as [(Hexp & _)|(_ & [rest Hhead] & Hmin)].
    { specialize (Hlive _ _ Hit0). lia. }
    intros it Hit Hgone.
    assert (it = it0) as ->.
    { assert (key it ≠ k) by congruence.
      rewrite lookup_insert_ne in Hgone by done.
      destruct (decide (key it0 = key it)) as [E|N].
      - rewrite E in Hit0. congruence.
      - rewrite lookup_delete_ne in Hgone by done. congruence. }
    split_and!; [done|by eexists|].
    intros k' it' Hit' Hp Hne.
    destruct (Hrec _ _ Hhead) as [Hsort Htouched].
    destruct (inv_prio _ HI) as (_ & H2 & _).
    destruct (H2 _ _ Hit') as (l & Hl & Hin). rewrite Hp, Hhead in Hl.
    injection Hl as <-. apply elem_of_cons in Hin as [?|Hin]; [done|].
    apply StronglySorted_cons in Hsort as [Hf _].
    rewrite Forall_forall in Hf. specialize (Hf _ Hin).
    destruct (Htouched it0) as (n & Hn & _); [by left|].
    destruct (Htouched it') as (n' & Hn' & _); [by right|].
    rewrite (stamp_Some _ _ _ Hn), (stamp_Some _ _ _ Hn') in Hf.
    exists n, n'. rewrite <- (inv_key _ HI _ _ Hit'). done.
Qed.

End Interface.

(* ===================================================================== *)
(** ** The test suite of [index.test.ts], replayed *)
(* ===================================================================== *)

Example required_test_sequence :
  getKeys <$> run [OpSet "A" 1 15 100; OpSet "B" 2 15 103; OpSetMockTime 100;
                   OpSet "C" 3 5 110; OpSet "D" 4 1 115; OpSet "E" 5 5 150;
                   OpSet "F" 2 15 103; OpGet "C"; OpSet "G" 6 10 160] (new 4)
  = Some (list_to_set ["B"; "C"; "F"; "G"]).
Proof. vm_compute. reflexivity. Qed.

Example eviction_by_expTime_not_influenced_by_priority :
  (λ c, ((get c "A").2, (get c "B").2, (get c "C").2))
    <$> run (expired_ops ++ [OpSet "C" 3 5 110]) (new 2)
  = Some (None, Some 2, Some 3).
Proof. reflexivity. Qed.

Example eviction_by_priority_and_LRU_2 :
  (λ c, ((get c "A").2, (get c "B").2, (get c "C").2))
    <$> run (lru_ops ++ [OpSet "C" 3 5 110]) (new 2)
  = Some (Some 1, None, Some 3).
Proof. reflexivity. Qed.

(* ===================================================================== *)
(** ** The theorems at the states of the black-box tests *)
(* ===================================================================== *)

Lemma expired_entry_evicted_first_witness :
  reachable expired_full ∧ items expired_full !! "C" = None ∧
  numItems expired_full >= maxItems expired_full ∧
  (∃ k0 it0, items expired_full !! k0 = Some it0 ∧
             expTime it0 <= mockTime expired_full) ∧
  ∃ it,
    items expired_full !! key it = Some it ∧
    expTime it <= mockTime expired_full ∧
    evict expired_full = Some (deleteItem it expired_full) ∧
    set expired_full "C" 3 5 110
      = Some (addItem "C" 3 5 110 (deleteItem it expired_full)) ∧
    items (addItem "C" 3 5 110 (deleteItem it expired_full))
      = <["C" := mkItem "C" 3 110 5]> (delete (key it) (items expired_full)) ∧
    (∃ rest, expTree expired_full !! expTime it = Some (it :: rest)).
Proof.
  assert (H1 : reachable expired_full) by (exists 2, expired_ops; reflexivity).
  assert (H2 : items expired_full !! "C" = None) by reflexivity.
  assert (H3 : numItems expired_full >= maxItems expired_full)
    by (vm_compute; discriminate).
  assert (H4 : ∃ k0 it0, items expired_full !! k0 = Some it0 ∧
                         expTime it0 <= mockTime expired_full).
  { exists "A", (mkItem "A" 1 100 15). split; [reflexivity|].
    vm_compute. discriminate. }
  split_and!; [exact H1|exact H2|exact H3|exact H4|].
  exact (expired_entry_evicted_first expired_full "C" 3 5 110 H1 H2 H3 H4).
Defined.

Lemma lowest_priority_lru_evicted_witness :
  runT lru_ops (newT 2) = Some lru_full ∧
  items (state lru_full) !! "C" = None ∧
  numItems (state lru_full) >= maxItems (state lru_full) ∧
  (∀ k' it', items (state lru_full) !! k' = Some it' →
             mockTime (state lru_full) < expTime it') ∧
  ∃ c', set (state lru_full) "C" 3 5 110 = Some c' ∧
    (items (state lru_full) ≠ ∅ →
       ∃ it, items (state lru_full) !! key it = Some it ∧
             items c' = <["C" := mkItem "C" 3 110 5]>
                          (delete (key it) (items (state lru_full)))) ∧
    ∀ it, items (state lru_full) !! key it = Some it →
          items c' !! key it = None →
      (∀ k' it', items (state lru_full) !! k' = Some it' →
                 priority it <= priority it') ∧
      (∃ rest, priorityTree (state lru_full) !! priority it = Some (it :: rest)) ∧
      (∀ k' it', items (state lru_full) !! k' = Some it' →
                 priority it' = priority it → it' ≠ it →
                 ∃ n n', lastTouch lru_full !! key it = Some n ∧
                         lastTouch lru_full !! k' = Some n' ∧ (n < n')%nat).
Proof.
  assert (H1 : runT lru_ops (newT 2) = Some lru_full) by reflexivity.
  assert (H2 : items (state lru_full) !! "C" = None) by reflexivity.
  assert (H3 : numItems (state lru_full) >= maxItems (state lru_full))
    by (vm_compute; discriminate).
  assert (H4 : ∀ k' it', items (state lru_full) !! k' = Some it' →
                         mockTime (state lru_full) < expTime it').
  { apply (bool_decide_unpack
             (map_Forall (λ _ it', mockTime (state lru_full) < expTime it')
                (items (state lru_full)))).
    vm_compute. reflexivity. }
  split_and!; [exact H1|exact H2|exact H3|exact H4|].
  exact (lowest_priority_lru_evicted 2 lru_ops lru_full "C" 3 5 110 H1 H2 H3 H4).
Defined.

Lemma consistency_invariant_witness :
  reachable expired_full ∧
  numItems expired_full = Z.of_nat (size (items expired_full)) ∧
  members (expTree expired_full) = size (items expired_full) ∧
  members (priorityTree expired_full) = size (items expired_full).
Proof.
  assert (H1 : reachable expired_full) by (exists 2, expired_ops; reflexivity).
  split; [exact H1|]. exact (consistency_invariant expired_full H1).
Defined.

Lemma get_expired_is_absent_witness :
  items expired_full !! "A" = Some (mkItem "A" 1 100 15) ∧
  expTime (mkItem "A" 1 100 15) <= mockTime expired_full ∧
  (get expired_full "A").2 = None ∧
  numItems (get expired_full "A").1 = numItems expired_full ∧
  items (get expired_full "A").1 = items expired_full ∧
  expTree (get expired_full "A").1 = expTree expired_full ∧
  priorityTree (get expired_full "A").1 = priorityTree expired_full ∧
  ∀ k', items expired_full !! k' = None →
        get expired_full k' = get expired_full "A".
Proof.
  assert (H1 : items expired_full !! "A" = Some (mkItem "A" 1 100 15))
    by reflexivity.
  assert (H2 : expTime (mkItem "A" 1 100 15) <= mockTime expired_full)
    by (vm_compute; discriminate).
  split_and!; [exact H1|exact H2|..];
    apply (get_expired_is_absent expired_full "A" _ H1 H2).
Defined.

Lemma get_expired_state_unchanged_witness :
  items expired_full !! "A" = Some (mkItem "A" 1 100 15) ∧
  expTime (mkItem "A" 1 100 15) <= mockTime expired_full ∧
  (get expired_full "A").1 = expired_full.
Proof.
  assert (H1 : items expired_full !! "A" = Some (mkItem "A" 1 100 15))
    by reflexivity.
  assert (H2 : expTime (mkItem "A" 1 100 15) <= mockTime expired_full)
    by (vm_compute; discriminate).
  split_and!; [exact H1|exact H2|].
  exact (get_expired_state_unchanged expired_full "A" _ H1 H2).
Defined.


Lemma set_update_evicts_nothing_witness :
  let c := expired_full in
  reachable c ∧ items c !! "B" = Some (mkItem "B" 2 103 5) ∧
  ∃ c', set c "B" 7 1 200 = Some c' ∧
        items c' = <["B" := mkItem "B" 7 200 1]> (items c) ∧
        numItems c' = numItems c ∧
        ∀ k', k' ≠ "B" → items c' !! k' = items c !! k'.
Proof.
  intros c.
  assert (H1 : reachable c) by (exists 2, expired_ops; reflexivity).
  assert (H2 : items c !! "B" = Some (mkItem "B" 2 103 5)) by reflexivity.
  split_and!; [exact H1|exact H2|].
  exact (set_update_evicts_nothing c "B" 7 1 200 _ H1 H2).
Defined.


(** C3 as stated, for any capacity, fails: on a cache constructed with
    capacity 0 (or -1) the first [set] ends with one entry. *)
Lemma capacity_bound_fails_without_room :
  let c0 := addItem "A" 1 1 1 (new 0) in
  let c1 := addItem "A" 1 1 1 (new (-1)) in
  (run [OpSet "A" 1 1 1] (new 0) = Some c0 ∧
   numItems c0 = 1 ∧ maxItems c0 = 0 ∧ ¬ numItems c0 <= maxItems c0) ∧
  (run [OpSet "A" 1 1 1] (new (-1)) = Some c1 ∧
   numItems c1 = 1 ∧ maxItems c1 = -1 ∧ ¬ numItems c1 <= maxItems c1).
Proof.
  split; (split_and!; [reflexivity|reflexivity|reflexivity|]);
    vm_compute; intros H; apply H; reflexivity.
Qed.

Lemma capacity_bound_positive_witness :
  let ops := expired_ops ++ [OpSet "C" 3 5 110; OpSet "D" 4 1 120] in
  let c := default (new 2) (run ops (new 2)) in
  1 <= 2 ∧ run ops (new 2) = Some c ∧
  maxItems c = 2 ∧ numItems c <= maxItems c.
Proof.
  intros ops c.
  assert (H1 : 1 <= 2) by (vm_compute; discriminate).
  assert (H2 : run ops (new 2) = Some c) by reflexivity.
  split_and!; [exact H1|exact H2|..];
    apply (capacity_bound_positive 2 ops c H1 H2).
Defined.

(* ===================================================================== *)
(** ** Further properties of the methods *)
(* ===================================================================== *)

Section Further.

Context {T : Type}.
Implicit Types (c : Cache T) (it item : Item T) (l : list (Item T))
  (t : gmap Z (list (Item T))).

Lemma remove_middle it l r :
  (key it ∉ key <$> l) → DLL.remove it (l ++ it :: r) = l ++ r.
Proof.
  induction l as [|x l' IH]; simpl; intros Hn.
  - by rewrite decide_True.
  - apply not_elem_of_cons in Hn as [Hx Hl].
    rewrite decide_False by congruence. by rewrite IH.
Qed.

(** X2. When [set] returns, a [get] of the same key that follows returns
    the value just stored if the stored expiration time is ahead of the
    clock, and [undefined] if it is not: an entry stored already expired
    is never returned. *)
Theorem get_after_set c k v p e c' :
  reachable c → set c k v p e = Some c' →
  (get c' k).2 = if decide (e > mockTime c) then Some v else None.
Proof.
  intros HI%Inv_reachable Hs.
  destruct (set_cases c k v p e HI) as (c0 & Hs' & HI0 & Hn & _ & Ht & _).
  rewrite Hs in Hs'. injection Hs' as ->.
  pose proof (Inv_addItem k v p e c0 HI0 Hn) as HI'.
  destruct (addItem_fields k v p e c0) as (_ & Ht' & Hi' & _).
  assert (Hnew : items (addItem k v p e c0) !! k = Some (mkItem k v e p)).
  { rewrite Hi'. apply lookup_insert_eq. }
  case_decide as Hlive.
  - assert (Hlive' : expTime (mkItem k v e p) > mockTime (addItem k v p e c0)).
    { rewrite Ht', Ht. done. }
    by destruct (get_live _ k _ HI' Hnew Hlive') as (l1 & l2 & _ & _ & ->).
  - unfold get. rewrite Hnew. rewrite decide_False; [done|].
    rewrite Ht', Ht. done.
Qed.

(** X5. What a [set] that returns has done to the table on a key the
    table did not hold: with room left, or with nothing in the cache, it
    has only added the binding, expired entries included in what stays;
    on a full cache that is not empty it has removed one present entry,
    added the binding and left the counter as it was. *)
Theorem set_absent_effect c k v p e c' :
  reachable c → items c !! k = None → set c k v p e = Some c' →
  (numItems c < maxItems c ∨ items c = ∅ →
     items c' = <[k := mkItem k v e p]> (items c) ∧
     numItems c' = numItems c + 1) ∧
  (numItems c >= maxItems c → items c ≠ ∅ →
     ∃ it, items c !! key it = Some it ∧
           items c' = <[k := mkItem k v e p]> (delete (key it) (items c)) ∧
           numItems c' = numItems c).
Proof.
  intros HI%Inv_reachable Hk Hs.
  destruct (set_cases c k v p e HI) as (c0 & Hs' & _ & _ & _ & _ & Hcase).
  rewrite Hs in Hs'. injection Hs' as ->.
  destruct (addItem_fields k v p e c0) as (_ & _ & -> & -> & _).
  destruct Hcase as [(item & Hk' & _)|[(_ & Hlt & ->)|[(_ & Hfull & He & ->)|
    (_ & Hfull & it & Hit & -> & _)]]]; [congruence| | |].
  - split; [done|]. intros. lia.
  - split; [done|]. intros _ Hne. done.
  - destruct (deleteItem_fields it c) as (_ & _ & -> & -> & _). split.
    + intros [Hlt|He]; [lia|]. rewrite He in Hit. by rewrite lookup_empty in Hit.
    + intros _ _. exists it. split_and!; [done|done|lia].
Qed.

Lemma capacity_step_any c o c' :
  Inv c → numItems c <= Z.max (maxItems c) 1 → step c o = Some c' →
  maxItems c' = maxItems c ∧ numItems c' <= Z.max (maxItems c') 1.
Proof.
  intros HI Hle. destruct o as [k|k v p e|time]; simpl.
  - intros [= <-]. destruct (get_state c k HI) as [->|Hg]; [done|].
    by destruct Hg as (item & l1 & l2 & _ & _ & _ & _ & ->).
  - destruct (set_cases c k v p e HI) as (c0 & -> & HI0 & Hn & Hmax & _ & Hcase).
    intros [= <-]. destruct (addItem_fields k v p e c0) as (-> & _ & _ & -> & _).
    split; [done|]. rewrite Hmax.
    destruct Hcase as [(item & _ & ->)|[(_ & Hlt & ->)|[(_ & Hfull & He & ->)|
      (_ & Hfull & it & _ & -> & _)]]].
    + destruct (deleteItem_fields item c) as (_ & _ & _ & -> & _). lia.
    + lia.
    + pose proof (inv_count _ HI) as Hc. rewrite He, map_size_empty in Hc. lia.
    + destruct (deleteItem_fields it c) as (_ & _ & _ & -> & _). lia.
  - by intros [= <-].
Qed.

Lemma capacity_run_any ops c c' :
  Inv c → numItems c <= Z.max (maxItems c) 1 → run ops c = Some c' →
  maxItems c' = maxItems c ∧ numItems c' <= Z.max (maxItems c') 1.
Proof.
  revert c. induction ops as [|o r IH]; intros c HI Hle; simpl.
  - by intros [= <-].
  - destruct (Inv_step c o HI) as (c1 & Hs & HI1). rewrite Hs. simpl.
    destruct (capacity_step_any c o c1 HI Hle Hs) as [Hm1 Hle1].
    intros Hr. destruct (IH c1 HI1 Hle1 Hr) as [? ?]. split; [congruence|done].
Qed.

(** X6. Whatever integer capacity the cache was constructed with, zero
    and negative ones included, after every sequence of calls that has
    run to completion [maxItems] is the capacity given and the counter
    lies between 0 and the larger of [maxItems] and 1. *)
Theorem capacity_bound_any m (ops : list (@Op T)) c :
  run ops (new m) = Some c →
  maxItems c = m ∧ 0 <= numItems c <= Z.max m 1.
Proof.
  intros Hr.
  destruct (Inv_run ops (new m) (Inv_new m)) as (c' & Hr' & HI).
  assert (c' = c) as -> by congruence.
  destruct (capacity_run_any ops (new m) c (Inv_new m)) as [Hm Hle];
    simpl; [lia|done|].
  simpl in Hm. pose proof (inv_count _ HI). rewrite <- Hm. lia.
Qed.

Lemma get_again c k :
  Inv c → get (get c k).1 k = ((get c k).1, (get c k).2).
Proof.
  intros HI.
  destruct (items c !! k) as [item|] eqn:Hk.
  - destruct (decide (expTime item > mockTime c)) as [Hlive|Hdead].
    + destruct (get_live c k item HI Hk Hlive) as (l1 & l2 & Hl & Hnin & ->).
      simpl. unfold get at 1. simpl.
      rewrite Hk, decide_True, lookup_insert_eq by done.
      unfold Avl.mutated, DLL.insertLast.
      rewrite app_assoc, (remove_middle item (l1 ++ l2) []) by done.
      by rewrite app_nil_r, insert_insert_eq, <- app_assoc.
    + unfold get. rewrite Hk, decide_False by done. simpl.
      by rewrite Hk, decide_False by done.
  - unfold get. rewrite Hk. simpl. by rewrite Hk.
Qed.

(** X12. Reading a key a second time changes nothing: the second [get]
    returns what the first returned and leaves the state the first
    produced. *)
Theorem get_twice c k :
  reachable c → get (get c k).1 k = get c k.
Proof.
  intros HI%Inv_reachable. rewrite (get_again c k HI).
  symmetry. apply surjective_pairing.
Qed.

(** X13. [getKeys] lists exactly the keys for which [get] returns a value. *)
Theorem getKeys_get c k :
  reachable c → k ∈ getKeys c ↔ is_Some (get c k).2.
Proof.
  intros HI%Inv_reachable. unfold getKeys.
  rewrite elem_of_list_to_set, list_elem_of_fmap. split.
  - intros ([k' item] & -> & [Hlive Hin]%list_elem_of_filter).
    apply elem_of_map_to_list in Hin. simpl in *.
    rewrite (inv_key _ HI _ _ Hin). unfold get. rewrite Hin.
    rewrite decide_True by done. simpl. eauto.
  - unfold get. destruct (items c !! k) as [item|] eqn:Hk; simpl.
    + case_decide as Hlive; simpl; [|by intros [? ?]].
      intros _. exists (k, item). simpl. split.
      * by rewrite (inv_key _ HI _ _ Hk).
      * apply list_elem_of_filter. split; [done|].
        by apply elem_of_map_to_list.
    + by intros [? ?].
Qed.

(** X14. Moving the clock forward never brings a key back into the listing
    of [getKeys]. *)
Theorem getKeys_shrinks_with_time c time time' :
  time <= time' →
  getKeys (setMockTime c time') ⊆ getKeys (setMockTime c time).
Proof.
  intros Hle k. unfold getKeys. simpl.
  rewrite !elem_of_list_to_set, !list_elem_of_fmap.
  intros (kv & -> & [Hlive Hin]%list_elem_of_filter).
  exists kv. split; [done|]. apply list_elem_of_filter. split; [lia|done].
Qed.

End Further.

(* ===================================================================== *)
(** ** The further properties at the states of the black-box tests *)
(* ===================================================================== *)

Lemma get_after_set_witness :
  let c' := default expired_full (set expired_full "C" 3 5 110) in
  reachable expired_full ∧ set expired_full "C" 3 5 110 = Some c' ∧
  (get c' "C").2
    = if decide (110 > mockTime expired_full) then Some 3 else None.
Proof.
  intros c'.
  assert (H1 : reachable expired_full) by (exists 2, expired_ops; reflexivity).
  assert (H2 : set expired_full "C" 3 5 110 = Some c') by reflexivity.
  split_and!; [exact H1|exact H2|].
  exact (get_after_set expired_full "C" 3 5 110 c' H1 H2).
Defined.

Lemma set_absent_effect_witness :
  let c := expired_full in
  let c' := default c (set c "C" 3 5 110) in
  reachable c ∧ items c !! "C" = None ∧ set c "C" 3 5 110 = Some c' ∧
  (numItems c < maxItems c ∨ items c = ∅ →
     items c' = <["C" := mkItem "C" 3 110 5]> (items c) ∧
     numItems c' = numItems c + 1) ∧
  (numItems c >= maxItems c → items c ≠ ∅ →
     ∃ it, items c !! key it = Some it ∧
           items c' = <["C" := mkItem "C" 3 110 5]> (delete (key it) (items c)) ∧
           numItems c' = numItems c).
Proof.
  intros c c'.
  assert (H1 : reachable c) by (exists 2, expired_ops; reflexivity).
  assert (H2 : items c !! "C" = None) by reflexivity.
  assert (H3 : set c "C" 3 5 110 = Some c') by reflexivity.
  split_and!; [exact H1|exact H2|exact H3|..];
    apply (set_absent_effect c "C" 3 5 110 c' H1 H2 H3).
Defined.

Lemma capacity_bound_any_witness :
  let ops : list (@Op Z) := [OpSet "A" 1 1 1; OpSet "B" 2 2 2; OpGet "A"] in
  let c := default (new 0) (run ops (new 0)) in
  run ops (new 0) = Some c ∧
  maxItems c = 0 ∧ 0 <= numItems c <= Z.max 0 1.
Proof.
  intros ops c.
  assert (H1 : run ops (new 0) = Some c) by reflexivity.
  split; [exact H1|]. exact (capacity_bound_any 0 ops c H1).
Defined.

Lemma get_twice_witness :
  reachable pair ∧ get (get pair "A").1 "A" = get pair "A".
Proof.
  assert (H1 : reachable pair) by (exists 2, pair_ops; reflexivity).
  split; [exact H1|]. exact (get_twice pair "A" H1).
Defined.

Lemma getKeys_get_witness :
  reachable expired_full ∧
  ("B" ∈ getKeys expired_full ↔ is_Some (get expired_full "B").2).
Proof.
  assert (H1 : reachable expired_full) by (exists 2, expired_ops; reflexivity).
  split; [exact H1|]. exact (getKeys_get expired_full "B" H1).
Defined.

Lemma getKeys_shrinks_with_time_witness :
  0 <= 100 ∧
  getKeys (setMockTime pair 100) ⊆ getKeys (setMockTime pair 0).
Proof.
  assert (H1 : 0 <= 100) by (vm_compute; discriminate).
  split; [exact H1|]. exact (getKeys_shrinks_with_time pair 0 100 H1).
Defined.
